(** * OpenXcom: plurality rules of the translation engine

    A shallow embedding of [src/Engine/LanguagePlurality.cpp] and the
    properties its description states about it.

    - The C++ type [unsigned] is embedded as [N].  The rules only compare
      their argument with constants and take its remainder by 10 and 100;
      neither operation can leave the range of the type, so no wrap-around
      occurs anywhere in the file.
    - A string literal returned as [const char *] is embedded as a [string].
    - The class hierarchy below [LanguagePlurality] is closed and its
      objects carry no fields: an object is embedded as its dynamic class.
    - A [LanguagePlurality *] is embedded as [option LanguagePlurality],
      [None] being the null pointer.
    - The static [std::map] is embedded as a [gmap]; a function that reads
      or writes it takes the map and gives the new map back.
    - The file has no threads of its own.  Where a property speaks of
      concurrent callers, [create] is split at its statements and the
      callers' statements are interleaved by a schedule. *)

From stdpp Require Import gmap strings list fin_maps.
From Stdlib Require Import NArith Lia.

Local Open Scope N_scope.

(** ** The rule classes *)

(** Objects of the seven classes derived from [LanguagePlurality]. *)
Inductive LanguagePlurality : Set :=
  | OneSingular
  | ZeroOneSingular
  | NoSingular
  | CyrillicPlurality
  | CzechPlurality
  | PolishPlurality
  | RomanianPlurality.

#[global] Instance LanguagePlurality_eq_dec : EqDecision LanguagePlurality.
Proof. solve_decision. Defined.

(** [OneSingular::getSuffix] *)
Definition OneSingular_getSuffix (n : N) : string :=
  if n =? 1 then "_one" else "_other".

(** [ZeroOneSingular::getSuffix] *)
Definition ZeroOneSingular_getSuffix (n : N) : string :=
  if (n =? 0) || (n =? 1) then "_one" else "_other".

(** [NoSingular::getSuffix] *)
Definition NoSingular_getSuffix (n : N) : string := "_other".

(** [CyrillicPlurality::getSuffix] *)
Definition CyrillicPlurality_getSuffix (n : N) : string :=
  if (n mod 10 =? 1) && negb (n mod 100 =? 11) then "_one"
  else if ((2 <=? n mod 10) && (n mod 10 <=? 4)) &&
          negb ((12 <=? n mod 100) && (n mod 100 <=? 14)) then "_few"
  else if (n mod 10 =? 0) ||
          ((5 <=? n mod 10) && (n mod 10 <=? 9)) ||
          ((11 <=? n mod 100) && (n mod 100 <=? 14)) then "_many"
  else "_other".

(** [CzechPlurality::getSuffix] *)
Definition CzechPlurality_getSuffix (n : N) : string :=
  if n =? 1 then "_one"
  else if (2 <=? n) && (n <=? 4) then "_few"
  else "_other".

(** [PolishPlurality::getSuffix] *)
Definition PolishPlurality_getSuffix (n : N) : string :=
  if n =? 1 then "_one"
  else if ((2 <=? n mod 10) && (n mod 10 <=? 4)) &&
          negb ((12 <=? n mod 100) && (n mod 100 <=? 14)) then "_few"
  else if ((0 <=? n mod 10) && (n mod 10 <=? 1)) ||
          ((5 <=? n mod 10) && (n mod 10 <=? 9)) ||
          ((12 <=? n mod 100) && (n mod 100 <=? 14)) then "_many"
  else "_other".

(** [RomanianPlurality::getSuffix] *)
Definition RomanianPlurality_getSuffix (n : N) : string :=
  if n =? 1 then "_one"
  else if (n =? 0) || ((1 <=? n mod 100) && (n mod 100 <=? 19)) then "_few"
  else "_other".

(** The virtual call [this->getSuffix(n)]: dispatch on the dynamic class. *)
Definition getSuffix (this : LanguagePlurality) (n : N) : string :=
  match this with
  | OneSingular => OneSingular_getSuffix n
  | ZeroOneSingular => ZeroOneSingular_getSuffix n
  | NoSingular => NoSingular_getSuffix n
  | CyrillicPlurality => CyrillicPlurality_getSuffix n
  | CzechPlurality => CzechPlurality_getSuffix n
  | PolishPlurality => PolishPlurality_getSuffix n
  | RomanianPlurality => RomanianPlurality_getSuffix n
  end.

(** One of the three suffixes that are not ["_other"]. *)
Definition one_few_or_many (s : string) : Prop :=
  (s = "_one" ∨ s = "_few" ∨ s = "_many") ∧ s ≠ "_other".

(** ** The description's vocabulary

    The description speaks of a rule's [classify] and of four plural
    categories, each rendered as a fixed suffix.  The definitions of this
    module follow its words; the theorems compare them with the code. *)
Module Spec.

Inductive PluralCategory : Set := one | few | many | other.

#[global] Instance PluralCategory_eq_dec : EqDecision PluralCategory.
Proof. solve_decision. Defined.

(** The external encoding of a category. *)
Definition suffix (c : PluralCategory) : string :=
  match c with
  | one => "_one"
  | few => "_few"
  | many => "_many"
  | other => "_other"
  end.

(** "x in [lo, hi]" *)
Definition within (lo hi x : N) : Prop := lo ≤ x ∧ x ≤ hi.

#[global] Instance within_dec lo hi x : Decision (within lo hi x).
Proof. unfold within. apply _. Defined.

(** The table of rules, one row per variant, tests in the order listed. *)
Definition classify (v : LanguagePlurality) (n : N) : PluralCategory :=
  match v with
  | OneSingular =>
      if decide (n = 1) then one else other
  | ZeroOneSingular =>
      if decide (n = 0 ∨ n = 1) then one else other
  | NoSingular =>
      other
  | CyrillicPlurality =>
      if decide (n mod 10 = 1 ∧ n mod 100 ≠ 11) then one
      else if decide (within 2 4 (n mod 10) ∧ ¬ within 12 14 (n mod 100))
      then few
      else if decide (n mod 10 = 0 ∨ within 5 9 (n mod 10)
                      ∨ within 11 14 (n mod 100))
      then many
      else other
  | CzechPlurality =>
      if decide (n = 1) then one
      else if decide (within 2 4 n) then few
      else other
  | PolishPlurality =>
      if decide (n = 1) then one
      else if decide (within 2 4 (n mod 10) ∧ ¬ within 12 14 (n mod 100))
      then few
      else if decide (within 0 1 (n mod 10) ∨ within 5 9 (n mod 10)
                      ∨ within 12 14 (n mod 100))
      then many
      else other
  | RomanianPlurality =>
      if decide (n = 1) then one
      else if decide (n = 0 ∨ within 1 19 (n mod 100)) then few
      else other
  end.

(** The built-in table: locale identifier and the variant it selects. *)
Definition builtin : list (string * LanguagePlurality) :=
  [ ("fr", ZeroOneSingular);
    ("hu-HU", NoSingular);
    ("tr-TR", NoSingular);
    ("cs-CZ", CzechPlurality);
    ("pl-PL", PolishPlurality);
    ("ro", RomanianPlurality);
    ("ru", CyrillicPlurality);
    ("uk", CyrillicPlurality) ].

(** [resolve]: exact match in the built-in table, else the default. *)
Definition resolve (localeId : string) : LanguagePlurality :=
  default OneSingular ((list_to_map builtin : gmap string LanguagePlurality) !! localeId).

End Spec.

(** ** The factory and its table *)

(** [LanguagePlurality::PFCreate], a pointer to a function without
    arguments that returns a [LanguagePlurality *]. *)
Definition PFCreate : Type := unit → option LanguagePlurality.

(** [new C]: a pointer to a new object of class [C]; never null. *)
Definition new (C : LanguagePlurality) : option LanguagePlurality := Some C.

(** The static member function [create] of each class. *)
Definition OneSingular_create : PFCreate := λ _, new OneSingular.
Definition ZeroOneSingular_create : PFCreate := λ _, new ZeroOneSingular.
Definition NoSingular_create : PFCreate := λ _, new NoSingular.
Definition CyrillicPlurality_create : PFCreate := λ _, new CyrillicPlurality.
Definition CzechPlurality_create : PFCreate := λ _, new CzechPlurality.
Definition PolishPlurality_create : PFCreate := λ _, new PolishPlurality.
Definition RomanianPlurality_create : PFCreate := λ _, new RomanianPlurality.

(** [std::map::insert] of a pair: a key already present keeps its value. *)
Definition std_map_insert (kv : string * PFCreate)
    (m : gmap string PFCreate) : gmap string PFCreate :=
  match m !! kv.1 with
  | Some _ => m
  | None => <[kv.1 := kv.2]> m
  end.

(** [std::map::empty] *)
Definition std_map_empty (m : gmap string PFCreate) : bool :=
  bool_decide (m = ∅).

(** The initial value of the static [s_factoryFunctions]: a default
    constructed, hence empty, map. *)
Definition s_factoryFunctions_init : gmap string PFCreate := ∅.

(** [LanguagePlurality::create]: the object it returns and the value of
    [s_factoryFunctions] it leaves. *)
Definition create (language : string)
    (s_factoryFunctions : gmap string PFCreate)
    : option LanguagePlurality * gmap string PFCreate :=
  let s_factoryFunctions :=
    if std_map_empty s_factoryFunctions then
      let m := std_map_insert ("fr", ZeroOneSingular_create) s_factoryFunctions in
      let m := std_map_insert ("hu-HU", NoSingular_create) m in
      let m := std_map_insert ("tr-TR", NoSingular_create) m in
      let m := std_map_insert ("cs-CZ", CzechPlurality_create) m in
      let m := std_map_insert ("pl-PL", PolishPlurality_create) m in
      let m := std_map_insert ("ro", RomanianPlurality_create) m in
      let m := std_map_insert ("ru", CyrillicPlurality_create) m in
      let m := std_map_insert ("uk", CyrillicPlurality_create) m in
      m
    else s_factoryFunctions in
  let creator := OneSingular_create in
  let found := s_factoryFunctions !! language in
  let creator :=
    match found with
    | Some second => second
    | None => creator
    end in
  (creator (), s_factoryFunctions).

(** The table a first call of [create] leaves.  The argument of the call
    plays no part in it; the empty string stands for any. *)
Definition populated : gmap string PFCreate :=
  (create "" s_factoryFunctions_init).2.

(** The object each entry of a table constructs when it is called. *)
Definition constructs (m : gmap string PFCreate)
    : gmap string (option LanguagePlurality) :=
  (λ creator : PFCreate, creator ()) <$> m.

(** A sequence of calls of [create], each on the table the previous one
    left: the objects returned, in order, and the final table. *)
Fixpoint calls (languages : list string) (s : gmap string PFCreate)
    : list (option LanguagePlurality) * gmap string PFCreate :=
  match languages with
  | [] => ([], s)
  | language :: rest =>
      let '(r, s) := create language s in
      let '(rs, s) := calls rest s in
      (r :: rs, s)
  end.

(** ** Callers that overlap

    [create] cut at its statements: the test of [empty()], each of the
    eight [insert]s, and the lookup with the call of the creator.  A
    schedule names, step by step, the caller that runs its next statement
    on the shared table.  Statements are taken as atomic, which is the
    least interleaving an execution with several threads has. *)
Module Interleaving.

Local Open Scope nat_scope.

(** The [insert] statements of [create], in program order. *)
Definition inserts : list (string * PFCreate) :=
  [ ("fr", ZeroOneSingular_create);
    ("hu-HU", NoSingular_create);
    ("tr-TR", NoSingular_create);
    ("cs-CZ", CzechPlurality_create);
    ("pl-PL", PolishPlurality_create);
    ("ro", RomanianPlurality_create);
    ("ru", CyrillicPlurality_create);
    ("uk", CyrillicPlurality_create) ].

(** The table once the first [i] inserts ran on an empty one. *)
Definition filled (i : nat) : gmap string PFCreate :=
  foldl (λ m kv, std_map_insert kv m) ∅ (take i inserts).

(** The table once all of them ran. *)
Definition complete : gmap string PFCreate := filled (length inserts).

(** Where a caller stands in [create]. *)
Inductive pc : Type :=
  | at_guard                    (* not yet past [if (empty())] *)
  | at_insert (i : nat)         (* before the [i]-th insert *)
  | at_find                     (* before [find] *)
  | returned (r : option LanguagePlurality).

(** What a caller's statement saw of the shared table. *)
Inductive event : Type :=
  | Populate (t : nat)
      (* [t] found the table empty and enters the block of inserts *)
  | Skip (t : nat) (seen : gmap string PFCreate)
      (* [t] found the table [seen] not empty and skips the block *)
  | Find (t : nat) (seen : gmap string PFCreate).
      (* [t] looks its language up in the table [seen] *)

(** The next statement of caller [t]. *)
Definition step (t : nat) (language : string) (p : pc)
    (m : gmap string PFCreate) : pc * gmap string PFCreate * list event :=
  match p with
  | at_guard =>
      if std_map_empty m then (at_insert 0, m, [Populate t])
      else (at_find, m, [Skip t m])
  | at_insert i =>
      match inserts !! i with
      | Some kv =>
          (match inserts !! S i with
           | Some _ => at_insert (S i)
           | None => at_find
           end,
           std_map_insert kv m, [])
      | None => (at_find, m, [])
      end
  | at_find =>
      let creator := OneSingular_create in
      let found := m !! language in
      let creator :=
        match found with
        | Some second => second
        | None => creator
        end in
      (returned (creator ()), m, [Find t m])
  | returned r => (returned r, m, [])
  end.

(** The shared table, and each caller with its argument. *)
Record config : Type := Config {
  table : gmap string PFCreate;
  callers : list (string * pc)
}.

(** Every caller is about to call [create]; the table is as the static
    initialisation left it. *)
Definition start (languages : list string) : config :=
  {| table := s_factoryFunctions_init;
     callers := (λ language, (language, at_guard)) <$> languages |}.

(** Caller [t] runs one statement; a [t] that names no caller does
    nothing. *)
Definition sched_step (t : nat) (c : config) : config * list event :=
  match callers c !! t with
  | Some (language, p) =>
      let '(p', m', es) := step t language p (table c) in
      ({| table := m'; callers := <[t := (language, p')]> (callers c) |}, es)
  | None => (c, [])
  end.

(** A whole schedule: the final configuration and what was seen. *)
Fixpoint run (sched : list nat) (c : config) : config * list event :=
  match sched with
  | [] => (c, [])
  | t :: sched =>
      let '(c', es) := sched_step t c in
      let '(c'', es') := run sched c' in
      (c'', es ++ es')
  end.

(** A caller is inside [create]: past the guard and not yet returned. *)
Definition in_flight (p : pc) : bool :=
  match p with
  | at_insert _ | at_find => true
  | at_guard | returned _ => false
  end.

(** A caller is within the block of inserts. *)
Definition populating (p : pc) : bool :=
  match p with
  | at_insert _ => true
  | at_guard | at_find | returned _ => false
  end.

(** Caller [t] is about to test [empty()] while some caller is within
    the block of inserts. *)
Definition barges_in (t : nat) (c : config) : bool :=
  match callers c !! t with
  | Some (_, at_guard) =>
      existsb (λ lp : string * pc, populating lp.2) (callers c)
  | _ => false
  end.

(** Nobody ever tests [empty()] while a caller is within the block of
    inserts.  Calls may overlap in every other way. *)
Fixpoint population_alone (sched : list nat) (c : config) : bool :=
  match sched with
  | [] => true
  | t :: sched =>
      negb (barges_in t c) && population_alone sched (sched_step t c).1
  end.

(** How many callers entered the block of inserts. *)
Fixpoint populations (tr : list event) : nat :=
  match tr with
  | [] => 0
  | Populate _ :: tr => S (populations tr)
  | _ :: tr => populations tr
  end.

(** The table an event saw, if it comes from a read that found entries. *)
Definition seen_table (e : event) : option (gmap string PFCreate) :=
  match e with
  | Populate _ => None
  | Skip _ m | Find _ m => Some m
  end.

(** The table is filled by one caller at most, and whoever reads
    entries from it reads the complete table. *)
Definition guarded (tr : list event) : Prop :=
  populations tr ≤ 1 ∧
  ∀ e m, e ∈ tr → seen_table e = Some m → m = complete.

(** What a guard around the one-time population promises: [guarded],
    whoever the first callers are and however they are scheduled. *)
Definition guarded_under_every_schedule : Prop :=
  ∀ (languages : list string) (sched : list nat),
    guarded (run sched (start languages)).2.

(** The configurations a run goes through as long as nobody tests
    [empty()] while a caller is within the block of inserts, each with the
    number of callers that may still enter the block: nobody is inside
    [create] and the table is empty; caller [t] stands before its [i]-th
    insert and nobody else is inside [create]; the table is complete. *)
Inductive phase : nat → config → Prop :=
  | Fresh c :
      table c = ∅ →
      (∀ u l p, callers c !! u = Some (l, p) → in_flight p = false) →
      phase 1 c
  | Filling c t l i :
      i < length inserts →
      table c = filled i →
      callers c !! t = Some (l, at_insert i) →
      (∀ u l' p, u ≠ t → callers c !! u = Some (l', p) →
                 in_flight p = false) →
      phase 0 c
  | Ready c :
      table c = complete →
      (∀ u l j, callers c !! u ≠ Some (l, at_insert j)) →
      phase 0 c.

End Interleaving.

(** * The rules *)

(** Boolean tests of the code read as the propositions they decide. *)
Ltac tests_to_props :=
  repeat
    match goal with
    | H : _ && _ = true |- _ => apply andb_true_iff in H; destruct H
    | H : _ && _ = false |- _ => apply andb_false_iff in H; destruct H
    | H : _ || _ = true |- _ => apply orb_true_iff in H; destruct H
    | H : _ || _ = false |- _ => apply orb_false_iff in H; destruct H
    | H : negb _ = true |- _ => apply negb_true_iff in H
    | H : negb _ = false |- _ => apply negb_false_iff in H
    | H : (_ =? _) = true |- _ => apply N.eqb_eq in H
    | H : (_ =? _) = false |- _ => apply N.eqb_neq in H
    | H : (_ <=? _) = true |- _ => apply N.leb_le in H
    | H : (_ <=? _) = false |- _ => apply N.leb_gt in H
    end.

(** One branch of the code against one branch of the description: equal
    suffixes, or tests that exclude each other. *)
Ltac settle_branch :=
  first [ reflexivity
        | exfalso; unfold Spec.within in *; tests_to_props; lia ].

Ltac compare_rules :=
  unfold Spec.classify;
  repeat match goal with
         | |- context [if ?b then _ else _] =>
             lazymatch type of b with
             | bool => destruct b eqn:?
             | _ => destruct b
             end
         end;
  simpl; settle_branch.

Lemma OneSingular_refines n :
  OneSingular_getSuffix n = Spec.suffix (Spec.classify OneSingular n).
Proof. unfold OneSingular_getSuffix. compare_rules. Qed.

Lemma ZeroOneSingular_refines n :
  ZeroOneSingular_getSuffix n = Spec.suffix (Spec.classify ZeroOneSingular n).
Proof. unfold ZeroOneSingular_getSuffix. compare_rules. Qed.

Lemma NoSingular_refines n :
  NoSingular_getSuffix n = Spec.suffix (Spec.classify NoSingular n).
Proof. reflexivity. Qed.

Lemma CyrillicPlurality_refines n :
  CyrillicPlurality_getSuffix n = Spec.suffix (Spec.classify CyrillicPlurality n).
Proof. unfold CyrillicPlurality_getSuffix. compare_rules. Qed.

Lemma CzechPlurality_refines n :
  CzechPlurality_getSuffix n = Spec.suffix (Spec.classify CzechPlurality n).
Proof. unfold CzechPlurality_getSuffix. compare_rules. Qed.

Lemma PolishPlurality_refines n :
  PolishPlurality_getSuffix n = Spec.suffix (Spec.classify PolishPlurality n).
Proof. unfold PolishPlurality_getSuffix. compare_rules. Qed.

Lemma RomanianPlurality_refines n :
  RomanianPlurality_getSuffix n = Spec.suffix (Spec.classify RomanianPlurality n).
Proof. unfold RomanianPlurality_getSuffix. compare_rules. Qed.

(** The virtual call agrees with the table of rules on every class. *)
Lemma getSuffix_refines (this : LanguagePlurality) (n : N) :
  getSuffix this n = Spec.suffix (Spec.classify this n).
Proof.
  destruct this; cbn [getSuffix].
  - apply OneSingular_refines.
  - apply ZeroOneSingular_refines.
  - apply NoSingular_refines.
  - apply CyrillicPlurality_refines.
  - apply CzechPlurality_refines.
  - apply PolishPlurality_refines.
  - apply RomanianPlurality_refines.
Qed.

(** Distinct categories have distinct suffixes. *)
Lemma suffix_inj (c d : Spec.PluralCategory) :
  Spec.suffix c = Spec.suffix d → c = d.
Proof. destruct c, d; simpl; intros H; first [reflexivity | discriminate H]. Qed.

(** A remainder is below its divisor. *)
Lemma residues (n : N) : n mod 10 < 10 ∧ n mod 100 < 100.
Proof. split; apply N.mod_upper_bound; discriminate. Qed.

(** C6: for every count [n], [OneSingular] answers [one] if [n = 1] and
    [other] otherwise; [ZeroOneSingular] answers [one] if [n = 0] or
    [n = 1] and [other] otherwise; [NoSingular] always answers [other];
    [CzechPlurality] answers [one] if [n = 1], [few] if [n] is in [2, 4],
    and [other] otherwise. *)
Theorem simple_rules_classify (n : N) :
  getSuffix OneSingular n
    = Spec.suffix (if decide (n = 1) then Spec.one else Spec.other) ∧
  getSuffix ZeroOneSingular n
    = Spec.suffix (if decide (n = 0 ∨ n = 1) then Spec.one else Spec.other) ∧
  getSuffix NoSingular n = Spec.suffix Spec.other ∧
  getSuffix CzechPlurality n
    = Spec.suffix (if decide (n = 1) then Spec.one
                   else if decide (2 ≤ n ∧ n ≤ 4) then Spec.few
                   else Spec.other).
Proof.
  repeat split.
  - apply OneSingular_refines.
  - apply ZeroOneSingular_refines.
  - apply (CzechPlurality_refines n).
Qed.

(** C3: for every count [n], [CyrillicPlurality] answers [one] if
    [n % 10 = 1] and [n % 100 <> 11]; otherwise [few] if [n % 10] is in
    [2, 4] and [n % 100] is not in [12, 14]; otherwise [many] if
    [n % 10 = 0] or [n % 10] is in [5, 9] or [n % 100] is in [11, 14];
    otherwise [other]; the tests are tried in that order.  So 21 and 1
    give [one], 2 and 22 give [few], 5, 11 and 25 give [many]. *)
Theorem CyrillicPlurality_classify :
  (∀ n : N,
     getSuffix CyrillicPlurality n
       = Spec.suffix
           (if decide (n mod 10 = 1 ∧ n mod 100 ≠ 11) then Spec.one
            else if decide ((2 ≤ n mod 10 ∧ n mod 10 ≤ 4) ∧
                            ¬ (12 ≤ n mod 100 ∧ n mod 100 ≤ 14))
            then Spec.few
            else if decide (n mod 10 = 0 ∨ (5 ≤ n mod 10 ∧ n mod 10 ≤ 9) ∨
                            (11 ≤ n mod 100 ∧ n mod 100 ≤ 14))
            then Spec.many
            else Spec.other)) ∧
  getSuffix CyrillicPlurality 21 = "_one" ∧
  getSuffix CyrillicPlurality 1 = "_one" ∧
  getSuffix CyrillicPlurality 2 = "_few" ∧
  getSuffix CyrillicPlurality 5 = "_many" ∧
  getSuffix CyrillicPlurality 11 = "_many" ∧
  getSuffix CyrillicPlurality 22 = "_few" ∧
  getSuffix CyrillicPlurality 25 = "_many".
Proof.
  split; [intros n; apply (CyrillicPlurality_refines n) | repeat split].
Qed.

(** C4: for every count [n], [PolishPlurality] answers [one] if [n = 1];
    otherwise [few] if [n % 10] is in [2, 4] and [n % 100] is not in
    [12, 14]; otherwise [many] if [n % 10] is in [0, 1] or [n % 10] is in
    [5, 9] or [n % 100] is in [12, 14]; otherwise [other].  So 1 gives
    [one], 2 and 22 give [few], 5 and 12 give [many]. *)
Theorem PolishPlurality_classify :
  (∀ n : N,
     getSuffix PolishPlurality n
       = Spec.suffix
           (if decide (n = 1) then Spec.one
            else if decide ((2 ≤ n mod 10 ∧ n mod 10 ≤ 4) ∧
                            ¬ (12 ≤ n mod 100 ∧ n mod 100 ≤ 14))
            then Spec.few
            else if decide ((0 ≤ n mod 10 ∧ n mod 10 ≤ 1) ∨
                            (5 ≤ n mod 10 ∧ n mod 10 ≤ 9) ∨
                            (12 ≤ n mod 100 ∧ n mod 100 ≤ 14))
            then Spec.many
            else Spec.other)) ∧
  getSuffix PolishPlurality 1 = "_one" ∧
  getSuffix PolishPlurality 2 = "_few" ∧
  getSuffix PolishPlurality 5 = "_many" ∧
  getSuffix PolishPlurality 12 = "_many" ∧
  getSuffix PolishPlurality 22 = "_few".
Proof.
  split; [intros n; apply (PolishPlurality_refines n) | repeat split].
Qed.

(** C5: for every count [n], [RomanianPlurality] answers [one] if
    [n = 1]; otherwise [few] if [n = 0] or [n % 100] is in [1, 19];
    otherwise [other].  So 0, 12 and 101 give [few], 1 gives [one], 20
    gives [other]. *)
Theorem RomanianPlurality_classify :
  (∀ n : N,
     getSuffix RomanianPlurality n
       = Spec.suffix
           (if decide (n = 1) then Spec.one
            else if decide (n = 0 ∨ (1 ≤ n mod 100 ∧ n mod 100 ≤ 19))
            then Spec.few
            else Spec.other)) ∧
  getSuffix RomanianPlurality 0 = "_few" ∧
  getSuffix RomanianPlurality 1 = "_one" ∧
  getSuffix RomanianPlurality 12 = "_few" ∧
  getSuffix RomanianPlurality 20 = "_other" ∧
  getSuffix RomanianPlurality 101 = "_few".
Proof.
  split; [intros n; apply (RomanianPlurality_refines n) | repeat split].
Qed.

(** C7: every one of the seven rules, on every count, gives exactly one
    of the four categories, encoded as one of the suffixes ["_one"],
    ["_few"], ["_many"], ["_other"]; no count is left without one. *)
Theorem getSuffix_total (this : LanguagePlurality) (n : N) :
  (exists! c : Spec.PluralCategory, getSuffix this n = Spec.suffix c) ∧
  getSuffix this n ∈ ["_one"; "_few"; "_many"; "_other"]%string.
Proof.
  split.
  - exists (Spec.classify this n). split.
    + apply getSuffix_refines.
    + intros c Hc. apply suffix_inj. rewrite <- Hc.
      symmetry. apply getSuffix_refines.
  - rewrite getSuffix_refines.
    destruct (Spec.classify this n); simpl; set_solver.
Qed.

(** A rule whose last [return] cannot be reached. *)
Ltac last_return_unreachable n :=
  pose proof (residues n) as [? ?];
  let a := fresh "a" in let b := fresh "b" in
  set (a := n mod 10) in *; set (b := n mod 100) in *; clearbody a b;
  repeat match goal with
         | |- context [if ?b then _ else _] => destruct b eqn:?
         end;
  [ split; [ auto | discriminate ] ..
  | exfalso; tests_to_props; lia ].

(** C9: [CyrillicPlurality] and [PolishPlurality] answer [one], [few] or
    [many] on every count: their tests for these three cover every
    remainder by 10 and by 100, and the final [other] is never reached. *)
Theorem Cyrillic_Polish_never_other (n : N) :
  one_few_or_many (getSuffix CyrillicPlurality n) ∧
  one_few_or_many (getSuffix PolishPlurality n).
Proof.
  unfold one_few_or_many. split; cbn [getSuffix].
  - unfold CyrillicPlurality_getSuffix. last_return_unreachable n.
  - unfold PolishPlurality_getSuffix. last_return_unreachable n.
Qed.

(** * The factory *)

(** A first call fills the table, whatever its argument. *)
Lemma create_first (language : string) :
  (create language s_factoryFunctions_init).2 = populated.
Proof. reflexivity. Qed.

Lemma populated_not_empty : std_map_empty populated = false.
Proof. reflexivity. Qed.

(** On the filled table [create] skips the block of inserts and answers
    as the first call would. *)
Lemma create_populated (language : string) :
  create language populated
  = ((create language s_factoryFunctions_init).1, populated).
Proof. reflexivity. Qed.

Lemma calls_populated (languages : list string) :
  (calls languages populated).2 = populated.
Proof.
  induction languages as [|language rest IH]; [reflexivity|].
  cbn [calls]. rewrite create_populated.
  destruct (calls rest populated) as [rs s]. exact IH.
Qed.

(** The tables a program can ever find in [s_factoryFunctions]. *)
Lemma calls_table (history : list string) :
  (calls history s_factoryFunctions_init).2
  = match history with [] => s_factoryFunctions_init | _ => populated end.
Proof.
  destruct history as [|language rest]; [reflexivity|].
  cbn [calls].
  rewrite (surjective_pairing (create language s_factoryFunctions_init)).
  rewrite create_first.
  pose proof (calls_populated rest) as IH.
  destruct (calls rest populated) as [rs s]. exact IH.
Qed.

(** The answer of [create] does not depend on the calls made before. *)
Lemma create_after_calls (history : list string) (language : string) :
  (create language (calls history s_factoryFunctions_init).2).1
  = (create language s_factoryFunctions_init).1.
Proof.
  rewrite calls_table. destruct history; [reflexivity|].
  rewrite create_populated. reflexivity.
Qed.

(** The filled table holds the creators of the built-in variants. *)
Lemma populated_builtin :
  constructs populated = Some <$> list_to_map Spec.builtin.
Proof. vm_compute. reflexivity. Qed.

(** A first call answers as the built-in table says. *)
Lemma create_resolve (language : string) :
  (create language s_factoryFunctions_init).1 = Some (Spec.resolve language).
Proof.
  change ((create language s_factoryFunctions_init).1)
    with (default OneSingular_create (populated !! language) ()).
  unfold Spec.resolve.
  pose proof (f_equal (.!! language) populated_builtin) as H.
  unfold constructs in H. rewrite !lookup_fmap in H.
  destruct (populated !! language) as [creator|],
           (list_to_map Spec.builtin !! language) as [v|];
    simpl in *; first [reflexivity | congruence].
Qed.

Lemma unlisted_resolve (language : string) :
  language ∉ ["fr"; "hu-HU"; "tr-TR"; "cs-CZ"; "pl-PL"; "ro"; "ru"; "uk"]%string →
  Spec.resolve language = OneSingular.
Proof.
  intros H. unfold Spec.resolve.
  rewrite (not_elem_of_list_to_map_1 Spec.builtin language H). reflexivity.
Qed.

(** C1: for every locale identifier that is not one of the eight built-in
    keys, the empty string included, and whatever calls came before,
    [create] returns an object (not a null pointer) that answers every
    count as [OneSingular] does: [one] for 1 and [other] for every other
    count. *)
Theorem create_fallback (history : list string) (language : string) :
  language ∉ ["fr"; "hu-HU"; "tr-TR"; "cs-CZ"; "pl-PL"; "ro"; "ru"; "uk"]%string →
  ∃ rule : LanguagePlurality,
    (create language (calls history s_factoryFunctions_init).2).1 = Some rule ∧
    (∀ n : N, getSuffix rule n = getSuffix OneSingular n) ∧
    (∀ n : N, getSuffix rule n
              = Spec.suffix (if decide (n = 1) then Spec.one else Spec.other)).
Proof.
  intros H. exists OneSingular. split; [|split].
  - rewrite create_after_calls, create_resolve.
    f_equal. apply unlisted_resolve, H.
  - reflexivity.
  - intros n. apply OneSingular_refines.
Qed.

Lemma create_fallback_witness :
  (""%string ∉ ["fr"; "hu-HU"; "tr-TR"; "cs-CZ"; "pl-PL"; "ro"; "ru"; "uk"]%string) ∧
  ∃ rule : LanguagePlurality,
    (create "" (calls ["ru"; "en-US"]%string s_factoryFunctions_init).2).1
      = Some rule ∧
    (∀ n : N, getSuffix rule n = getSuffix OneSingular n) ∧
    (∀ n : N, getSuffix rule n
              = Spec.suffix (if decide (n = 1) then Spec.one else Spec.other)).
Proof.
  assert (H : ""%string ∉ ["fr"; "hu-HU"; "tr-TR"; "cs-CZ"; "pl-PL";
                           "ro"; "ru"; "uk"]%string)
    by (apply (bool_decide_unpack _); vm_compute; exact I).
  split; [exact H | exact (create_fallback ["ru"; "en-US"]%string "" H)].
Defined.

(** C2: whatever calls came before, [create] answers a built-in locale
    identifier with the variant listed for it, and any identifier as the
    exact, case-sensitive lookup in the built-in table says.  The rule for
    ["ru"] puts 21 in [one]; the rule for ["xx-unknown"] puts it in
    [other]. *)
Theorem create_builtin (history : list string) :
  let resolve (localeId : string) :=
    (create localeId (calls history s_factoryFunctions_init).2).1 in
  resolve "fr" = Some ZeroOneSingular ∧
  resolve "hu-HU" = Some NoSingular ∧
  resolve "tr-TR" = Some NoSingular ∧
  resolve "cs-CZ" = Some CzechPlurality ∧
  resolve "pl-PL" = Some PolishPlurality ∧
  resolve "ro" = Some RomanianPlurality ∧
  resolve "ru" = Some CyrillicPlurality ∧
  resolve "uk" = Some CyrillicPlurality ∧
  (∀ localeId : string, resolve localeId = Some (Spec.resolve localeId)) ∧
  resolve "FR" = Some OneSingular ∧
  resolve "Ru" = Some OneSingular ∧
  (flip getSuffix 21 <$> resolve "ru") = Some "_one"%string ∧
  (flip getSuffix 21 <$> resolve "xx-unknown") = Some "_other"%string.
Proof.
  cbv beta zeta.
  repeat (split; [rewrite create_after_calls; reflexivity|]).
  split; [|repeat split; rewrite create_after_calls; reflexivity].
  intros localeId. rewrite create_after_calls. apply create_resolve.
Qed.

(** C8: the first call of [create] fills the table, which then holds
    exactly the eight built-in entries; every later call, whatever its
    argument, finds the table not empty, leaves it as it is, and returns
    what the first call would return for the same argument. *)
Theorem table_built_once (first : string) (later : list string) :
  let built := (create first s_factoryFunctions_init).2 in
  let now := (calls later built).2 in
  std_map_empty s_factoryFunctions_init = true ∧
  size built = 8%nat ∧
  constructs built = Some <$> list_to_map Spec.builtin ∧
  now = built ∧
  std_map_empty now = false ∧
  ∀ language : string,
    create language now
    = ((create language s_factoryFunctions_init).1, now).
Proof.
  cbv zeta. rewrite create_first, calls_populated.
  split; [reflexivity|]. split; [reflexivity|].
  split; [exact populated_builtin|]. split; [reflexivity|].
  split; [reflexivity|]. exact create_populated.
Qed.

(** * Callers that overlap, and callers that do not *)

Section Overlap.
Import Interleaving.
Local Open Scope nat_scope.

(** The stepwise table is the table of [create]. *)
Lemma complete_populated : complete = populated.
Proof. reflexivity. Qed.

Lemma empty_is_empty : std_map_empty ∅ = true.
Proof. reflexivity. Qed.

Lemma complete_not_empty : std_map_empty complete = false.
Proof. reflexivity. Qed.

Lemma filled_S (i : nat) (kv : string * PFCreate) :
  inserts !! i = Some kv → filled (S i) = std_map_insert kv (filled i).
Proof.
  intros H. unfold filled. rewrite (take_S_r _ _ _ H).
  rewrite foldl_app. reflexivity.
Qed.

Lemma filled_all (i : nat) :
  i < length inserts → inserts !! S i = None → filled (S i) = complete.
Proof.
  intros Hlt Hnone. apply lookup_ge_None in Hnone.
  replace (S i) with (length inserts) by lia. reflexivity.
Qed.

(** A caller alone on a table runs as [create] does: ten statements on
    the initial table, two on the populated one. *)
Lemma solo_first_call (language : string) :
  run (replicate 10 0) (start [language])
  = ({| table := (create language s_factoryFunctions_init).2;
        callers := [(language,
                     returned (create language s_factoryFunctions_init).1)] |},
     [Populate 0; Find 0 populated]).
Proof. reflexivity. Qed.

Lemma solo_later_call (language : string) :
  run [0; 0] {| table := populated; callers := [(language, at_guard)] |}
  = ({| table := (create language populated).2;
        callers := [(language, returned (create language populated).1)] |},
     [Skip 0 populated; Find 0 populated]).
Proof. reflexivity. Qed.

Lemma populations_app (tr tr' : list event) :
  populations (tr ++ tr') = populations tr + populations tr'.
Proof.
  induction tr as [|[t|t m|t m] tr IH]; simpl; [reflexivity|..];
    rewrite IH; reflexivity.
Qed.

(** What a caller's entry reads after caller [t] moved. *)
Lemma callers_moved (c : config) (t u : nat) (x y : string * pc) :
  <[t := x]> (callers c) !! u = Some y →
  (u = t ∧ y = x) ∨ (u ≠ t ∧ callers c !! u = Some y).
Proof.
  intros H. apply list_lookup_insert_Some in H.
  destruct H as [(-> & -> & _) | (Hne & H)]; [left | right]; auto.
Qed.

(** [barges_in], read as a proposition. *)
Lemma barges_in_spec (t : nat) (c : config) :
  barges_in t c = true ↔
  ∃ l u l' i, callers c !! t = Some (l, at_guard) ∧
              callers c !! u = Some (l', at_insert i).
Proof.
  unfold barges_in. split.
  - destruct (callers c !! t) as [[l [|j| |r]]|]; try discriminate.
    intros H. apply existsb_exists in H as ([l' p] & Hin & Hp).
    apply list_elem_of_In, list_elem_of_lookup in Hin as [u Hu].
    destruct p as [|i| |r]; try discriminate Hp.
    exists l, u, l', i. split; [reflexivity | exact Hu].
  - intros (l & u & l' & i & Ht & Hu). rewrite Ht.
    apply existsb_exists. exists (l', at_insert i).
    split; [|reflexivity].
    apply list_elem_of_In. eapply list_elem_of_lookup_2, Hu.
Qed.

(** Before the last insert the table is not the complete one. *)
Lemma filled_partial (i : nat) : i < length inserts → filled i ≠ complete.
Proof.
  intros Hi H. apply (f_equal size) in H.
  do 8 (destruct i as [|i]; [vm_compute in H; discriminate H|]).
  simpl in Hi. lia.
Qed.

Ltac no_reads :=
  intros ? ? He; apply elem_of_nil in He; destruct He.

Ltac one_read :=
  let He := fresh in let Hm := fresh in
  intros ? ? He Hm; apply list_elem_of_singleton in He; subst;
  simpl in Hm; congruence.

(** One statement of a caller that does not barge in keeps the
    configuration in a phase, takes what it populates from the allowance
    of the phase, and reads entries from the complete table only. *)
Lemma sched_step_phase (k : nat) (c : config) (t : nat) :
  phase k c → barges_in t c = false →
  ∃ k', phase k' (sched_step t c).1 ∧
        populations (sched_step t c).2 + k' = k ∧
        ∀ e m, e ∈ (sched_step t c).2 → seen_table e = Some m →
               m = complete.
Proof.
  intros Hph Hcalm.
  assert (Hstay : callers c !! t = None ∨
                  (∃ l r, callers c !! t = Some (l, returned r)) →
                  sched_step t c = (c, [])).
  { unfold sched_step. intros [Ht|(l & r & Ht)]; rewrite Ht; [reflexivity|].
    cbn [step]. rewrite (list_insert_id _ _ _ Ht). destruct c; reflexivity. }
  destruct (callers c !! t) as [[l p]|] eqn:Ht.
  2: { rewrite Hstay by (left; reflexivity). exists k. simpl.
       split; [exact Hph|]. split; [lia|no_reads]. }
  destruct p as [|j| |r].
  4: { rewrite Hstay by (right; exists l, r; reflexivity). exists k. simpl.
       split; [exact Hph|]. split; [lia|no_reads]. }
  all: unfold sched_step; rewrite Ht; cbn [step].
  all: destruct Hph as [c Htab Hidle | c t' l' i Hi Htab Ht' Hrest
                       | c Htab Hnone].
  - (* the guard, on the empty table *)
    rewrite Htab, empty_is_empty. exists 0. split; [|split; [reflexivity|]].
    + apply (Filling _ t l 0); simpl.
      * lia.
      * reflexivity.
      * apply list_lookup_insert_eq. eapply lookup_lt_Some, Ht.
      * intros u l' p Hne Hu.
        apply callers_moved in Hu as [[? _]|[_ Hu]]; [contradiction|].
        exact (Hidle _ _ _ Hu).
    + intros e m He Hm. apply list_elem_of_singleton in He. subst e.
      discriminate Hm.
  - (* the guard, while t' fills the table: barging in *)
    exfalso. apply not_true_iff_false in Hcalm. apply Hcalm.
    apply barges_in_spec. exists l, t', l', i. split; assumption.
  - (* the guard, on the complete table *)
    rewrite Htab, complete_not_empty. exists 0.
    split; [|split; [reflexivity|one_read]].
    apply Ready; simpl; [reflexivity|].
    intros u l' j Hu.
    apply callers_moved in Hu as [[_ Hu]|[_ Hu]]; [discriminate Hu|].
    exact (Hnone _ _ _ Hu).
  - (* an insert, with nobody inside: impossible *)
    apply Hidle in Ht. discriminate Ht.
  - (* an insert of the caller that fills the table *)
    destruct (decide (t = t')) as [->|Hne].
    2: { apply (Hrest _ _ _ Hne) in Ht. discriminate Ht. }
    rewrite Ht' in Ht. injection Ht as <- <-.
    destruct (lookup_lt_is_Some_2 _ _ Hi) as [kv Hkv]. rewrite Hkv.
    exists 0. split; [|split; [reflexivity|no_reads]].
    rewrite Htab, <- (filled_S _ _ Hkv).
    destruct (inserts !! S i) as [kv'|] eqn:Hnext.
    + apply (Filling _ t' l' (S i)); cbn [table callers].
      * eapply lookup_lt_Some, Hnext.
      * reflexivity.
      * apply list_lookup_insert_eq. eapply lookup_lt_Some, Ht'.
      * intros u l p Hne Hu.
        apply callers_moved in Hu as [[? _]|[_ Hu]]; [contradiction|].
        exact (Hrest _ _ _ Hne Hu).
    + apply Ready; simpl.
      * apply filled_all; assumption.
      * intros u l j Hu.
        apply callers_moved in Hu as [[_ Hu]|[Hne Hu]]; [discriminate Hu|].
        apply (Hrest _ _ _ Hne) in Hu. discriminate Hu.
  - (* an insert, on the complete table: impossible *)
    destruct (Hnone _ _ _ Ht).
  - (* the lookup, with nobody inside: impossible *)
    apply Hidle in Ht. discriminate Ht.
  - (* the lookup, while t' fills the table: impossible *)
    destruct (decide (t = t')) as [->|Hne].
    + rewrite Ht' in Ht. discriminate Ht.
    + apply (Hrest _ _ _ Hne) in Ht. discriminate Ht.
  - (* the lookup, on the complete table *)
    rewrite Htab. exists 0. split; [|split; [reflexivity|one_read]].
    apply Ready; simpl; [reflexivity|].
    intros u l' j Hu.
    apply callers_moved in Hu as [[_ Hu]|[_ Hu]]; [discriminate Hu|].
    exact (Hnone _ _ _ Hu).
Qed.

(** A caller that barges in finds the allowance used up, and either
    enters the block of inserts as well or reads entries from a table
    that is not complete. *)
Lemma barging_in_breaks (k : nat) (c : config) (t : nat) :
  phase k c → barges_in t c = true →
  k = 0 ∧
  (populations (sched_step t c).2 = 1 ∨
   ∃ e m, e ∈ (sched_step t c).2 ∧ seen_table e = Some m ∧ m ≠ complete).
Proof.
  intros Hph Hb. apply barges_in_spec in Hb as (l & u & l' & i & Ht & Hu).
  destruct Hph as [c Htab Hidle | c t' l'' i' Hi Htab Ht' Hrest
                  | c Htab Hnone].
  - apply Hidle in Hu. discriminate Hu.
  - split; [reflexivity|].
    unfold sched_step. rewrite Ht. cbn [step]. rewrite Htab.
    destruct (std_map_empty (filled i')); simpl.
    + left. reflexivity.
    + right. exists (Skip t (filled i')), (filled i').
      split; [apply list_elem_of_here|].
      split; [reflexivity | apply filled_partial, Hi].
  - destruct (Hnone _ _ _ Hu).
Qed.

(** Along a whole schedule: the trace stays within the allowance and
    reads entries from the complete table only, exactly when nobody
    barges in. *)
Lemma run_phase (sched : list nat) :
  ∀ (k : nat) (c : config),
    phase k c →
    (populations (run sched c).2 ≤ k ∧
     ∀ e m, e ∈ (run sched c).2 → seen_table e = Some m → m = complete)
    ↔ population_alone sched c = true.
Proof.
  induction sched as [|t sched IH]; intros k c Hph.
  - simpl. split; [reflexivity|]. intros _. split; [lia | no_reads].
  - cbn [population_alone run]. destruct (barges_in t c) eqn:Hb.
    + destruct (barging_in_breaks k c t Hph Hb) as [-> Hbad].
      destruct (sched_step t c) as [c' es]. simpl in Hbad.
      destruct (run sched c') as [c'' es']. simpl.
      split; [|discriminate]. intros [Hpop Hreads]. exfalso.
      rewrite populations_app in Hpop.
      destruct Hbad as [Hone | (e & m & He & Hm & Hne)]; [lia|].
      apply Hne, (Hreads e m); [|exact Hm].
      apply elem_of_app. left. exact He.
    + destruct (sched_step_phase k c t Hph Hb)
        as (k' & Hph' & Hpop & Hreads).
      specialize (IH k' _ Hph').
      destruct (sched_step t c) as [c' es]. simpl in *.
      destruct (run sched c') as [c'' es']. simpl in *.
      rewrite <- IH, populations_app. split.
      * intros [Hle Hall]. split; [lia|].
        intros e m He. apply Hall, elem_of_app. right. exact He.
      * intros [Hle Hall]. split; [lia|].
        intros e m He. apply elem_of_app in He as [He|He]; eauto.
Qed.

Lemma start_fresh (languages : list string) : phase 1 (start languages).
Proof.
  apply Fresh; [reflexivity|]. simpl. intros u l p Hu.
  rewrite list_lookup_fmap in Hu.
  destruct (languages !! u); simpl in Hu; [|discriminate Hu].
  injection Hu as _ <-. reflexivity.
Qed.

(** Calls may overlap once the table is complete: three callers, all
    inside [create] at once after the first has filled the table, and
    each returns the rule of its language. *)
Lemma overlap_after_population :
  let three := start ["fr"; "ru"; "xx"]%string in
  callers (run [0; 0; 0; 0; 0; 0; 0; 0; 0; 1; 2] three).1
  = [("fr", at_find); ("ru", at_find); ("xx", at_find)]%string ∧
  callers (run [0; 0; 0; 0; 0; 0; 0; 0; 0; 1; 2; 0; 2; 1] three).1
  = [("fr", returned (Some ZeroOneSingular));
     ("ru", returned (Some CyrillicPlurality));
     ("xx", returned (Some OneSingular))]%string.
Proof. split; reflexivity. Qed.

(** C10, as the code has it: [create] has no lock and no once-flag, only
    the test that the table is empty.  That is enough exactly for the
    first callers that never test it while another caller is within the
    block of inserts: then, and only then, one caller at most fills the
    table and whoever reads entries from it reads the complete table.
    Calls may overlap in every other way. *)
Theorem population_alone_guarded (languages : list string) (sched : list nat) :
  guarded (run sched (start languages)).2
  ↔ population_alone sched (start languages) = true.
Proof. exact (run_phase sched 1 _ (start_fresh languages)). Qed.

Lemma population_alone_guarded_witness :
  population_alone [0; 0; 0; 0; 0; 0; 0; 0; 0; 1; 2; 0; 2; 1]
                   (start ["fr"; "ru"; "xx"]%string) = true ∧
  guarded (run [0; 0; 0; 0; 0; 0; 0; 0; 0; 1; 2; 0; 2; 1]
               (start ["fr"; "ru"; "xx"]%string)).2.
Proof.
  split; [reflexivity | apply population_alone_guarded; reflexivity].
Defined.

(** C10, as it is stated, fails on two callers.  Scheduled in turn, both
    find the table empty and both enter the block of inserts.  If the
    second arrives after the first insert of the first, it finds the
    table not empty, looks ["ru"] up in a table that holds ["fr"] only,
    and returns the default rule. *)
Lemma overlapping_first_calls :
  let two := start ["fr"; "ru"]%string in
  (run [0; 1] two).2 = [Populate 0; Populate 1] ∧
  ¬ guarded (run [0; 1] two).2 ∧
  (∃ seen : gmap string PFCreate,
     (run [0; 0; 1; 1] two).2 = [Populate 0; Skip 1 seen; Find 1 seen] ∧
     dom seen = {["fr"%string]}) ∧
  callers (run [0; 0; 1; 1] two).1 !! 1
    = Some ("ru"%string, returned (Some OneSingular)) ∧
  ¬ guarded (run [0; 0; 1; 1] two).2 ∧
  ¬ guarded_under_every_schedule.
Proof.
  cbv zeta.
  assert (H1 : ¬ guarded (run [0; 1] (start ["fr"; "ru"]%string)).2).
  { intros [Hpop _]. vm_compute in Hpop. lia. }
  assert (H2 : ¬ guarded (run [0; 0; 1; 1] (start ["fr"; "ru"]%string)).2).
  { intros [_ Hreads].
    specialize (Hreads (Find 1 (filled 1)) (filled 1)).
    assert (Hsize : size (filled 1) = size complete)
      by (f_equal; apply Hreads; [set_solver | reflexivity]).
    vm_compute in Hsize. discriminate Hsize. }
  split; [reflexivity|]. split; [exact H1|].
  split; [exists (filled 1); split; [reflexivity | vm_compute; reflexivity]|].
  split; [reflexivity|]. split; [exact H2|].
  intros H. exact (H1 (H _ _)).
Qed.
End Overlap.

(** * Further properties of the rules *)

(** The last digit of a count is the last digit of its last two digits. *)
Lemma last_digit (n : N) : (n mod 100) mod 10 = n mod 10.
Proof.
  change 100 with (10 * 10). rewrite N.Div0.mod_mul_r.
  rewrite (N.mul_comm 10 ((n / 10) mod 10)), N.Div0.mod_add.
  apply N.Div0.mod_mod.
Qed.

Lemma last_two_digits (n : N) : (n mod 100) mod 100 = n mod 100.
Proof. apply N.Div0.mod_mod. Qed.

(** Every test of the code taken both ways. *)
Ltac split_tests :=
  repeat match goal with
         | |- context [if ?b then _ else _] => destruct b eqn:?
         end.

(** X1: [CyrillicPlurality] looks at the last two digits of a count only:
    a count and its remainder by 100 get the same suffix, and so do any
    two counts with the same remainder by 100. *)
Theorem Cyrillic_last_two_digits :
  (∀ n : N,
     getSuffix CyrillicPlurality n = getSuffix CyrillicPlurality (n mod 100)) ∧
  (∀ n m : N,
     n mod 100 = m mod 100 →
     getSuffix CyrillicPlurality n = getSuffix CyrillicPlurality m).
Proof.
  assert (H : ∀ n : N,
    getSuffix CyrillicPlurality n = getSuffix CyrillicPlurality (n mod 100)).
  { intros n. cbn [getSuffix]. unfold CyrillicPlurality_getSuffix.
    rewrite last_digit, last_two_digits. reflexivity. }
  split; [exact H|]. intros n m Hnm.
  rewrite (H n), (H m), Hnm. reflexivity.
Qed.

(** X2: [PolishPlurality] looks at the last two digits of a count only,
    except that 101, 201, ... are [many] although 1 is [one]. *)
Theorem Polish_last_two_digits (n : N) :
  getSuffix PolishPlurality n
  = if decide (n ≠ 1 ∧ n mod 100 = 1) then "_many"%string
    else getSuffix PolishPlurality (n mod 100).
Proof.
  cbn [getSuffix]. unfold PolishPlurality_getSuffix.
  rewrite last_digit, last_two_digits.
  pose proof (last_digit n) as Hd.
  destruct (decide (n = 1)) as [->|Hn]; [reflexivity|].
  apply N.eqb_neq in Hn as Hn'. rewrite Hn'.
  case_decide as Hc.
  - destruct Hc as [_ Hc]. rewrite Hc in Hd |- *. rewrite <- Hd. reflexivity.
  - assert (Hr : n mod 100 ≠ 1) by (intros Hr; apply Hc; split; assumption).
    apply N.eqb_neq in Hr. rewrite Hr. reflexivity.
Qed.

(** X3: [RomanianPlurality] looks at the last two digits of a count only,
    except on the hundreds and the counts just after them: 100, 200, ...
    are [other] although 0 is [few], and 101, 201, ... are [few] although
    1 is [one]. *)
Theorem Romanian_last_two_digits (n : N) :
  getSuffix RomanianPlurality n
  = if decide (100 ≤ n ∧ n mod 100 ≤ 1)
    then (if decide (n mod 100 = 0) then "_other" else "_few")%string
    else getSuffix RomanianPlurality (n mod 100).
Proof.
  cbn [getSuffix]. unfold RomanianPlurality_getSuffix.
  rewrite last_two_digits.
  destruct (decide (n < 100)) as [Hlt|Hge].
  - rewrite (N.mod_small n 100 Hlt).
    case_decide as Hc; [exfalso; lia | reflexivity].
  - set (r := n mod 100) in *. clearbody r.
    repeat case_decide; split_tests;
      first [reflexivity | exfalso; tests_to_props; lia].
Qed.

(** X4: [PolishPlurality] and [CyrillicPlurality] give different suffixes
    exactly on the counts other than 1 that end in 1 but not in 11 (21,
    31, 101, ...); there the Cyrillic rule says [one] and the Polish rule
    says [many]. *)
Theorem Polish_against_Cyrillic (n : N) :
  (getSuffix PolishPlurality n ≠ getSuffix CyrillicPlurality n
   ↔ n ≠ 1 ∧ n mod 10 = 1 ∧ n mod 100 ≠ 11) ∧
  (getSuffix PolishPlurality n = getSuffix CyrillicPlurality n ∨
   (getSuffix CyrillicPlurality n = "_one"%string ∧
    getSuffix PolishPlurality n = "_many"%string)).
Proof.
  cbn [getSuffix]. unfold PolishPlurality_getSuffix, CyrillicPlurality_getSuffix.
  destruct (decide (n = 1)) as [->|Hn].
  - split; [|left; reflexivity].
    split; [intros H; destruct H; reflexivity | intros [H _]; destruct H; reflexivity].
  - apply N.eqb_neq in Hn as Hn'. rewrite Hn'.
    pose proof (residues n) as [Ha Hb].
    set (a := n mod 10) in *. set (b := n mod 100) in *. clearbody a b.
    split_tests; tests_to_props;
      (split;
       [ split;
         [ intros Hdiff; first [ destruct Hdiff; reflexivity | repeat split; lia ]
         | intros Hends; first [ discriminate | exfalso; lia ] ]
       | first [ left; reflexivity | right; split; reflexivity | exfalso; lia ] ]).
Qed.

(** A string is listed. *)
Ltac listed :=
  solve [ repeat first [ apply list_elem_of_here | apply list_elem_of_further ] ].

(** X5: the suffixes each rule can return, no more and no less.  Only the
    Cyrillic and the Polish rule ever say [many], and they never say
    [other]; the Czech and the Romanian rule never say [many]; the three
    simple rules say neither [few] nor [many]. *)
Theorem getSuffix_image :
  let image (this : LanguagePlurality) (suffixes : list string) :=
    ∀ s : string, (∃ n : N, getSuffix this n = s) ↔ s ∈ suffixes in
  image OneSingular ["_one"; "_other"]%string ∧
  image ZeroOneSingular ["_one"; "_other"]%string ∧
  image NoSingular ["_other"]%string ∧
  image CyrillicPlurality ["_one"; "_few"; "_many"]%string ∧
  image CzechPlurality ["_one"; "_few"; "_other"]%string ∧
  image PolishPlurality ["_one"; "_few"; "_many"]%string ∧
  image RomanianPlurality ["_one"; "_few"; "_other"]%string.
Proof.
  cbv zeta.
  assert (Hattained : ∀ this (ns : list N) (s : string),
            s ∈ (getSuffix this <$> ns) → ∃ n, getSuffix this n = s).
  { intros this ns s Hs. apply list_elem_of_fmap in Hs as (n & -> & _).
    exists n. reflexivity. }
  repeat split.
  all: try (intros [n <-];
            cbv [getSuffix OneSingular_getSuffix ZeroOneSingular_getSuffix
                 NoSingular_getSuffix CyrillicPlurality_getSuffix
                 CzechPlurality_getSuffix PolishPlurality_getSuffix
                 RomanianPlurality_getSuffix];
            pose proof (residues n) as [? ?];
            set (a := n mod 10) in *; set (b := n mod 100) in *; clearbody a b;
            split_tests; first [ listed | exfalso; tests_to_props; lia ]).
  all: intros Hs; apply (Hattained _ [0; 1; 2; 5; 20]);
    repeat (apply elem_of_cons in Hs as [->|Hs]; [vm_compute; listed|]);
    apply elem_of_nil in Hs; destruct Hs.
Qed.

(** X6: the counts whose last two digits are 11 to 19 are [many] under
    the Cyrillic and the Polish rule, whatever their last digit, and [few]
    under the Romanian rule. *)
Theorem teens (n : N) :
  11 ≤ n mod 100 ∧ n mod 100 ≤ 19 →
  getSuffix CyrillicPlurality n = "_many"%string ∧
  getSuffix PolishPlurality n = "_many"%string ∧
  getSuffix RomanianPlurality n = "_few"%string.
Proof.
  intros [Hlo Hhi].
  assert (Hd : n mod 10 = n mod 100 - 10).
  { rewrite <- last_digit. set (b := n mod 100) in *. clearbody b.
    replace b with (b - 10 + 1 * 10) at 1 by lia.
    rewrite N.Div0.mod_add. apply N.mod_small. lia. }
  assert (Hn : n ≠ 0 ∧ n ≠ 1).
  { split; intros ->; vm_compute in Hlo; apply Hlo; reflexivity. }
  destruct Hn as [Hn0 Hn1].
  apply N.eqb_neq in Hn0, Hn1.
  cbn [getSuffix].
  unfold CyrillicPlurality_getSuffix, PolishPlurality_getSuffix,
    RomanianPlurality_getSuffix.
  rewrite Hn0, Hn1, Hd.
  set (b := n mod 100) in *. clearbody b.
  repeat split; split_tests;
    first [reflexivity | exfalso; tests_to_props; lia].
Qed.

Lemma teens_witness :
  (11 ≤ 112 mod 100 ∧ 112 mod 100 ≤ 19) ∧
  getSuffix CyrillicPlurality 112 = "_many"%string ∧
  getSuffix PolishPlurality 112 = "_many"%string ∧
  getSuffix RomanianPlurality 112 = "_few"%string.
Proof.
  assert (H : 11 ≤ 112 mod 100 ∧ 112 mod 100 ≤ 19)
    by (split; vm_compute; discriminate).
  split; [exact H | exact (teens 112 H)].
Defined.

(** * Further properties of the factory *)

(** The rule of a language, by cases on the language: one goal for each
    key of the table and one for the languages that are no key. *)
Ltac by_language language :=
  let Hin := fresh "Hin" in
  destruct (decide (language ∈ ["fr"; "hu-HU"; "tr-TR"; "cs-CZ"; "pl-PL";
                                "ro"; "ru"; "uk"]%string)) as [Hin|Hin];
  [ repeat (apply elem_of_cons in Hin as [->|Hin]);
    [ match goal with
      | |- context [Spec.resolve ?l] =>
          let v := eval vm_compute in (Spec.resolve l) in
          change (Spec.resolve l) with v
      end ..
    | apply elem_of_nil in Hin; destruct Hin ]
  | rewrite (unlisted_resolve language Hin) ].

(** All the rules of the file unfolded. *)
Ltac unfold_rules :=
  cbv [getSuffix OneSingular_getSuffix ZeroOneSingular_getSuffix
       NoSingular_getSuffix CyrillicPlurality_getSuffix
       CzechPlurality_getSuffix PolishPlurality_getSuffix
       RomanianPlurality_getSuffix].

(** X7: whatever calls came before, the rule [create] returns for a
    language puts the count 1 in [one], unless the language is ["hu-HU"]
    or ["tr-TR"], whose rule puts it in [other]. *)
Theorem create_count_one (history : list string) (language : string) :
  ∃ rule : LanguagePlurality,
    (create language (calls history s_factoryFunctions_init).2).1 = Some rule ∧
    getSuffix rule 1
    = if decide (language ∈ ["hu-HU"; "tr-TR"]%string)
      then "_other"%string else "_one"%string.
Proof.
  exists (Spec.resolve language).
  split; [rewrite create_after_calls; apply create_resolve|].
  by_language language; try (vm_compute; reflexivity).
  case_decide as Hc; [|reflexivity].
  exfalso. apply Hin.
  repeat (apply elem_of_cons in Hc as [->|Hc]; [listed|]).
  apply elem_of_nil in Hc. destruct Hc.
Qed.

(** X8: whatever calls came before and whatever the count, the rule
    [create] returns says [many] only for ["pl-PL"], ["ru"] and ["uk"],
    and [few] only for these and ["cs-CZ"] and ["ro"]; for the three
    former it never says [other]. *)
Theorem create_few_many (history : list string) (language : string) (n : N) :
  ∃ rule : LanguagePlurality,
    (create language (calls history s_factoryFunctions_init).2).1 = Some rule ∧
    (getSuffix rule n = "_many"%string →
     language ∈ ["pl-PL"; "ru"; "uk"]%string) ∧
    (getSuffix rule n = "_few"%string →
     language ∈ ["cs-CZ"; "pl-PL"; "ro"; "ru"; "uk"]%string) ∧
    (getSuffix rule n = "_other"%string →
     language ∉ ["pl-PL"; "ru"; "uk"]%string).
Proof.
  exists (Spec.resolve language).
  split; [rewrite create_after_calls; apply create_resolve|].
  pose proof (residues n) as [Ha Hb].
  by_language language; unfold_rules;
    set (a := n mod 10) in *; set (b := n mod 100) in *; clearbody a b;
    (split; [|split]); split_tests; intros Hs;
    first [ discriminate Hs
          | listed
          | exfalso; tests_to_props; lia
          | intros Hl;
            repeat (apply elem_of_cons in Hl as [Hl|Hl];
                    [first [discriminate Hl | subst language; apply Hin; listed]|]);
            apply elem_of_nil in Hl; destruct Hl ].
Qed.

(** X9: whatever calls came before, the rule [create] returns says [one]
    only for the count 1; for the count 0 if the language is ["fr"]; and
    for a count that ends in 1 but not in 11 if the language is ["ru"] or
    ["uk"]. *)
Theorem create_one_counts (history : list string) (language : string) (n : N) :
  ∃ rule : LanguagePlurality,
    (create language (calls history s_factoryFunctions_init).2).1 = Some rule ∧
    (getSuffix rule n = "_one"%string →
     n = 1 ∨
     (language = "fr"%string ∧ n = 0) ∨
     (language ∈ ["ru"; "uk"]%string ∧ n mod 10 = 1 ∧ n mod 100 ≠ 11)).
Proof.
  exists (Spec.resolve language).
  split; [rewrite create_after_calls; apply create_resolve|].
  by_language language; unfold_rules; split_tests; intros Hs;
    try discriminate Hs; tests_to_props;
    first [ left; assumption
          | right; left; split; [reflexivity | assumption]
          | right; right; split; [listed | split; assumption] ].
Qed.

(** X10: where falling back to the default rule gives another suffix
    than the rule of a language.  Against [OneSingular],
    [ZeroOneSingular] differs on 0 alone and [NoSingular] on 1 alone;
    [CzechPlurality] differs on 2, 3 and 4; [RomanianPlurality] differs on
    0 and on the counts other than 1 whose last two digits are 01 to 19;
    [CyrillicPlurality] and [PolishPlurality] differ on every count but
    1. *)
Ltac split_all :=
  repeat match goal with
         | |- _ ∧ _ => split
         | |- _ ↔ _ => split
         end.

Theorem default_against_rules (n : N) :
  (getSuffix ZeroOneSingular n ≠ getSuffix OneSingular n ↔ n = 0) ∧
  (getSuffix NoSingular n ≠ getSuffix OneSingular n ↔ n = 1) ∧
  (getSuffix CyrillicPlurality n ≠ getSuffix OneSingular n ↔ n ≠ 1) ∧
  (getSuffix CzechPlurality n ≠ getSuffix OneSingular n ↔ 2 ≤ n ∧ n ≤ 4) ∧
  (getSuffix PolishPlurality n ≠ getSuffix OneSingular n ↔ n ≠ 1) ∧
  (getSuffix RomanianPlurality n ≠ getSuffix OneSingular n
   ↔ n = 0 ∨ (n ≠ 1 ∧ 1 ≤ n mod 100 ∧ n mod 100 ≤ 19)).
Proof.
  destruct (decide (n = 1)) as [->|Hn].
  - split_all; intros Hd;
      first [ reflexivity | destruct Hd; reflexivity | discriminate Hd
            | discriminate | exfalso; lia ].
  - pose proof (residues n) as [Ha Hb]. unfold_rules.
    apply N.eqb_neq in Hn as Hn'. rewrite Hn'.
    set (a := n mod 10) in *. set (b := n mod 100) in *. clearbody a b.
    split_all; split_tests; intros Hd; tests_to_props;
      first [ discriminate Hd | discriminate | destruct Hd; reflexivity
            | assumption | lia | exfalso; lia ].
Qed.
